(** * Exoplanet equilibrium temperatures: a model of 06-Tables/astroquery.ipynb

    The notebook fetches the confirmed-planets table of the NASA Exoplanet
    Archive as an astropy [QTable], reads columns by name, builds two boolean
    masks from the discovery-method column, and computes the equilibrium
    temperature

      teq = (teff * np.sqrt(rstar / (2 * a))).decompose()

    with unit-carrying arrays.  The cells are embedded below as functions of
    the table [archive].  Magnitudes are binary64 numbers (Rocq's primitive
    floats, the format of NumPy's float64); exceptions are values of an error
    monad; the library operations the cells call (column lookup, [==], boolean
    indexing, Quantity arithmetic, [np.sqrt], [np.isfinite], [decompose]) are
    given the behaviour astropy and NumPy document for one-dimensional
    columns. *)

From Stdlib Require Import ZArith QArith Floats String Lia Lqa.
From HB Require Import structures.
From mathcomp Require Import ssreflect ssrfun ssrbool eqtype ssrnat seq path.

Set Implicit Arguments.
Unset Strict Implicit.
Unset Printing Implicit Defensive.

Close Scope Q_scope.
Set Warnings "-rewrite-rw".

(** ** Exceptions *)

(** The exceptions the modelled operations raise.  [UnitConversionError] is
    what astropy raises when a quantity is converted to a unit of another
    dimension. *)
Inductive exn :=
| KeyError (key : string)
| IndexError
| ValueError
| TypeError
| AttributeError
| UnitConversionError.

Inductive result (A : Type) :=
| Ok (x : A)
| Raise (e : exn).

Arguments Ok {A} x.
Arguments Raise {A} e.

Definition bind {A B : Type} (r : result A) (k : A -> result B) : result B :=
  match r with
  | Ok x => k x
  | Raise e => Raise e
  end.

Notation "x <- r ;; k" := (bind r (fun x => k))
  (at level 61, r at next level, right associativity).

HB.instance Definition string_hasDecEq := hasDecEq.Build string String.eqb_spec.

(** ** Units *)

(** The unit symbols of [astropy.units] that the catalogue columns use. *)
Module u.
Inductive name := m | kg | s | K | AU | solRad | jupiterRad | day | mK.
End u.

Definition names : seq u.name :=
  [:: u.m; u.kg; u.s; u.K; u.AU; u.solRad; u.jupiterRad; u.day; u.mK].

Definition code (b : u.name) : nat :=
  match b with
  | u.m => 0 | u.kg => 1 | u.s => 2 | u.K => 3 | u.AU => 4
  | u.solRad => 5 | u.jupiterRad => 6 | u.day => 7 | u.mK => 8
  end.

(** A composite unit of scale 1: the exponent of every unit symbol. *)
Definition CompositeUnit := u.name -> Q.

Definition named (b : u.name) : CompositeUnit :=
  fun b' => if code b == code b' then 1%Q else 0%Q.

Definition dimensionless_unscaled : CompositeUnit := fun _ => 0%Q.

Definition unit_mul (u1 u2 : CompositeUnit) : CompositeUnit :=
  fun b => (u1 b + u2 b)%Q.

Definition unit_div (u1 u2 : CompositeUnit) : CompositeUnit :=
  fun b => (u1 b - u2 b)%Q.

Definition unit_pow (u1 : CompositeUnit) (p : Q) : CompositeUnit :=
  fun b => (u1 b * p)%Q.

(** What a unit symbol stands for: [None] for the irreducible SI base units,
    otherwise a scale and a unit in SI base units (IAU 2012 astronomical unit,
    IAU 2015 nominal solar radius and equatorial Jupiter radius). *)
Definition represents (b : u.name) : option (float * CompositeUnit) :=
  match b with
  | u.m | u.kg | u.s | u.K => None
  | u.AU => Some (149597870700%float, named u.m)
  | u.solRad => Some (695700000%float, named u.m)
  | u.jupiterRad => Some (71492000%float, named u.m)
  | u.day => Some (86400%float, named u.s)
  | u.mK => Some (0x1.0624dd2f1a9fcp-10%float, named u.K)   (* 0.001 *)
  end.

(** Exponent of the SI base unit [d] in the decomposition of [u0]. *)
Definition si_exponent (u0 : CompositeUnit) (d : u.name) : Q :=
  match represents d with
  | Some _ => 0%Q
  | None =>
      foldr (fun b acc =>
               match represents b with
               | None => (acc + u0 b * named b d)%Q
               | Some (_, r) => (acc + u0 b * r d)%Q
               end) 0%Q names
  end.

Definition decompose_unit (u0 : CompositeUnit) : CompositeUnit := si_exponent u0.

(** Two units of the same dimension ([is_equivalent] without equivalencies). *)
Definition same_dimension (u1 u2 : CompositeUnit) : Prop :=
  forall d, (si_exponent u1 d == si_exponent u2 d)%Q.

(** The same unit: the same exponent on every symbol. *)
Definition same_unit (u1 u2 : CompositeUnit) : Prop :=
  forall b, (u1 b == u2 b)%Q.

(** The position of a symbol when the symbols are sorted by their names as
    Python compares strings: AU, K, d, jupiterRad, kg, m, mK, s, solRad. *)
Definition name_rank (b : u.name) : nat :=
  match b with
  | u.AU => 0 | u.K => 1 | u.day => 2 | u.jupiterRad => 3 | u.kg => 4
  | u.m => 5 | u.mK => 6 | u.s => 7 | u.solRad => 8
  end.

(** The order in which a composite unit keeps its bases: by decreasing
    power, then by name. *)
Definition base_before (u0 : CompositeUnit) (b1 b2 : u.name) : bool :=
  negb (Qle_bool (u0 b1) (u0 b2))
  || (Qeq_bool (u0 b1) (u0 b2) && (name_rank b1 <= name_rank b2)).

(** The bases of a composite unit: the symbols of power other than zero, in
    that order. *)
Definition bases (u0 : CompositeUnit) : seq u.name :=
  sort (base_before u0) (filter (fun b => negb (Qeq_bool (u0 b) 0)) names).

Section Scale.

(** [scale ** power] of the unit decomposition is the C library's [pow], which
    IEEE 754 does not fix to the last bit: it is a parameter here. *)
Variable pow : float -> Q -> float.

(** The scale of the decomposition of [u0]: starting from 1, multiplied by
    [pow scale power] for each base of [u0] that is not irreducible, in the
    order of the bases. *)
Definition decompose_scale (u0 : CompositeUnit) : float :=
  foldl (fun scale b =>
           match represents b with
           | None => scale
           | Some (s, _) => (scale * pow s (Qred (u0 b)))%float
           end) 1%float (bases u0).

End Scale.

(** A [pow] for integer and half-integer exponents of magnitude at most one,
    those that one square root of a quotient of catalogue units produces. *)
Definition pow_halves (x : float) (p : Q) : float :=
  match Qred p with
  | Qmake 1 1 => x
  | Qmake (-1) 1 => (1 / x)%float
  | Qmake 1 2 => sqrt x
  | Qmake (-1) 2 => (1 / sqrt x)%float
  | _ => nan
  end.

(** ** Columns and tables *)

(** A column of a [QTable]: a [Quantity] (magnitudes and their unit) or a
    column of strings. *)
Inductive column :=
| Quantity (value : seq float) (unit : CompositeUnit)
| StrColumn (data : seq string).

Definition col_size (c : column) : nat :=
  match c with
  | Quantity v _ => size v
  | StrColumn d => size d
  end.

(** The columns of a table in their order; names are unique and all columns
    have one length. *)
Definition table := seq (string * column).

Definition nrows (archive : table) : nat :=
  match archive with
  | [::] => 0
  | (_, c) :: _ => col_size c
  end.

Definition well_formed (archive : table) : bool :=
  uniq [seq p.1 | p <- archive]
  && all (fun p => col_size p.2 == nrows archive) archive.

(** [archive[name]] *)
Fixpoint getitem (archive : table) (name : string) : result column :=
  match archive with
  | [::] => Raise (KeyError name)
  | (n, c) :: rest => if n == name then Ok c else getitem rest name
  end.

(** [column[mask]] with a boolean array *)
Definition getitem_mask (c : column) (m : bitseq) : result column :=
  match c with
  | Quantity v u0 =>
      if size m == size v then Ok (Quantity (mask m v) u0) else Raise IndexError
  | StrColumn d =>
      if size m == size d then Ok (StrColumn (mask m d)) else Raise IndexError
  end.

(** [ndarray[mask]] *)
Definition ndarray_getitem (v : seq float) (m : bitseq) : result (seq float) :=
  if size m == size v then Ok (mask m v) else Raise IndexError.

(** A string without its trailing NUL characters. *)
Fixpoint rstrip_nul (s : string) : string :=
  match s with
  | EmptyString => EmptyString
  | String c rest =>
      match rstrip_nul rest with
      | EmptyString =>
          if Ascii.eqb c Ascii.zero then EmptyString else String c EmptyString
      | r => String c r
      end
  end.

(** The answer of [column == 'text']: an array of booleans for a column of
    strings, where NumPy compares fixed-width strings and so ignores trailing
    NUL characters; for a numeric column the comparison is not element-wise
    and Python answers the scalar [False]. *)
Inductive comparison_result :=
| Elementwise (m : bitseq)
| Scalar (b : bool).

Definition column_eq (c : column) (v : string) : comparison_result :=
  match c with
  | StrColumn d => Elementwise [seq rstrip_nul x == rstrip_nul v | x <- d]
  | Quantity _ _ => Scalar false
  end.

(** NumPy's broadcasting of a binary operation over two one-dimensional
    arrays. *)
Definition broadcast (f : float -> float -> float) (x y : seq float)
  : result (seq float) :=
  if size x == size y then Ok [seq f p.1 p.2 | p <- zip x y]
  else if size x == 1 then Ok [seq f (head nan x) b | b <- y]
  else if size y == 1 then Ok [seq f a (head nan y) | a <- x]
  else Raise ValueError.

(** [c1 * c2] *)
Definition mul (c1 c2 : column) : result column :=
  match c1, c2 with
  | Quantity v1 u1, Quantity v2 u2 =>
      v <- broadcast PrimFloat.mul v1 v2 ;; Ok (Quantity v (unit_mul u1 u2))
  | _, _ => Raise TypeError
  end.

(** [c1 / c2] *)
Definition truediv (c1 c2 : column) : result column :=
  match c1, c2 with
  | Quantity v1 u1, Quantity v2 u2 =>
      v <- broadcast PrimFloat.div v1 v2 ;; Ok (Quantity v (unit_div u1 u2))
  | _, _ => Raise TypeError
  end.

(** [k * c] for a Python number [k] *)
Definition rmul (k : float) (c : column) : result column :=
  match c with
  | Quantity v u0 => Ok (Quantity [seq (k * x)%float | x <- v] u0)
  | StrColumn _ => Raise TypeError
  end.

(** [np.sqrt(c)] *)
Definition np_sqrt (c : column) : result column :=
  match c with
  | Quantity v u0 => Ok (Quantity [seq sqrt x | x <- v] (unit_pow u0 (1 # 2)))
  | StrColumn _ => Raise TypeError
  end.

(** [np.isfinite(c)] *)
Definition np_isfinite (c : column) : result bitseq :=
  match c with
  | Quantity v _ => Ok [seq is_finite x | x <- v]
  | StrColumn _ => Raise TypeError
  end.

(** [c.value] *)
Definition value (c : column) : result (seq float) :=
  match c with
  | Quantity v _ => Ok v
  | StrColumn _ => Raise AttributeError
  end.

Section Notebook.

Variable pow : float -> Q -> float.

(** [c.decompose()]: the magnitudes times the scale of the decomposed unit,
    in SI base units of scale 1. *)
Definition decompose (c : column) : result column :=
  match c with
  | Quantity v u0 =>
      Ok (Quantity [seq (x * decompose_scale pow u0)%float | x <- v]
                   (decompose_unit u0))
  | StrColumn _ => Raise AttributeError
  end.

Variable archive : table.

(** Cell 4: [archive['pl_orbper']] *)
Definition pl_orbper : result column := getitem archive "pl_orbper".

(** Cell 8: [archive[name] == text], and the two masks built with it. *)
Definition column_equals (name text : string) : result comparison_result :=
  c <- getitem archive name ;; Ok (column_eq c text).

Definition transits : result comparison_result :=
  column_equals "pl_discmethod" "Transit".

Definition rvs : result comparison_result :=
  column_equals "pl_discmethod" "Radial Velocity".

(** Cell 8: [archive[name][mask]], a plotted subset. *)
Definition subset (name : string) (m : bitseq) : result column :=
  c <- getitem archive name ;; getitem_mask c m.

(** Cell 10 *)
Definition teff : result column := getitem archive "st_teff".
Definition rstar : result column := getitem archive "st_rad".
Definition a : result column := getitem archive "pl_orbsmax".

(** [rstar / (2 * a)] *)
Definition ratio : result column :=
  rstar <- rstar ;;
  a <- a ;;
  two_a <- rmul 2 a ;;
  truediv rstar two_a.

(** [teq = (teff * np.sqrt(rstar / (2 * a))).decompose()] *)
Definition teq : result column :=
  teff <- teff ;;
  q <- ratio ;;
  root <- np_sqrt q ;;
  product <- mul teff root ;;
  decompose product.

(** [teq.value[np.isfinite(teq)]], the data of the histogram. *)
Definition hist_data : result (seq float) :=
  teq <- teq ;;
  finite <- np_isfinite teq ;;
  v <- value teq ;;
  ndarray_getitem v finite.

End Notebook.

(** Modelled from the spec: Table.filter(mask), a new table with all columns
    sliced with the same mask (section 4.3).  The notebook slices the plotted
    columns one at a time, as [subset] does; this applies that slicing to
    every column. *)
Fixpoint table_getitem_mask (archive : table) (m : bitseq) : result table :=
  match archive with
  | [::] => Ok [::]
  | (n, c) :: rest =>
      c' <- getitem_mask c m ;;
      rest' <- table_getitem_mask rest m ;;
      Ok ((n, c') :: rest')
  end.

(** ** The formula of the text before cell 10 *)

(** [T_eq = T_eff * sqrt (R_star / (2 a)) * (1 - A_B)^(1/4)], the fourth root
    taken as two square roots. *)
Definition T_eq (A_B T_eff R_star a : float) : float :=
  (T_eff * sqrt (R_star / (2 * a)) * sqrt (sqrt (1 - A_B)))%float.

(** The unit of [teff * np.sqrt(rstar / (2 * a))] before [decompose]. *)
Definition teq_unit (uT uR uA : CompositeUnit) : CompositeUnit :=
  unit_mul uT (unit_pow (unit_div uR uA) (1 # 2)).

(** The rows a mask selects among [n] rows. *)
Definition rows_of (m : bitseq) (n : nat) : seq nat :=
  filter (nth false m) (iota 0 n).

(** [c'] is the slice of [c] under [m]: the same kind of column and unit, and
    the entries of the selected rows in their order. *)
Definition slice_of (m : bitseq) (c c' : column) : Prop :=
  match c, c' with
  | Quantity v u0, Quantity v' u0' =>
      u0' = u0 /\ v' = [seq nth nan v i | i <- rows_of m (size v)]
  | StrColumn d, StrColumn d' =>
      d' = [seq nth EmptyString d i | i <- rows_of m (size d)]
  | _, _ => False
  end.

(** The binary64 numbers within two units in the last place of [y]. *)
Definition ulps2 (y : float) : seq float :=
  [:: next_down (next_down y); next_down y; y; next_up y; next_up (next_up y)].

(** ** The conversion factor in exact arithmetic *)

(** The rational number that a finite binary64 number is. *)
Definition Q_of_float (x : float) : Q :=
  match Prim2SF x with
  | S754_finite sign m e =>
      (inject_Z (if sign then Zneg m else Zpos m) * Qpower 2 e)%Q
  | _ => 0%Q
  end.

(** The size of one unit of a symbol in SI base units: the astronomical unit
    (IAU 2012), the nominal solar radius and equatorial Jupiter radius
    (IAU 2015) in metres, the day in seconds, the millikelvin in kelvin. *)
Definition si_value (b : u.name) : Q :=
  match b with
  | u.m | u.kg | u.s | u.K => 1%Q
  | u.AU => 149597870700%Q
  | u.solRad => 695700000%Q
  | u.jupiterRad => 71492000%Q
  | u.day => 86400%Q
  | u.mK => (1 # 1000)%Q
  end.

(** [b] is a unit of the dimension of the SI base unit [d]. *)
Definition has_dimension (d b : u.name) : bool :=
  all (fun x => Qeq_bool (si_exponent (named b) x) (named d x)) names.

(** The square of the number of kelvin that one [bT * sqrt (bR / bA)] is. *)
Definition conversion_squared (bT bR bA : u.name) : Q :=
  (si_value bT ^ 2 * si_value bR / si_value bA)%Q.

(** [s] is the square root of [q] to a relative error of at most 10^-14. *)
Definition is_sqrt_of (s : float) (q : Q) : bool :=
  [&& is_finite s, Qle_bool 0 (Q_of_float s),
      Qle_bool ((1 - (1 # 100000000000000)) ^ 2 * q) (Q_of_float s ^ 2)
    & Qle_bool (Q_of_float s ^ 2) ((1 + (1 # 100000000000000)) ^ 2 * q)].

(** A [pow] that is exact at the exponent 1 and, on the scales of the unit
    symbols, within two units in the last place of the square root and of
    its inverse at the exponents 1/2 and -1/2. *)
Definition pow_accurate (pow : float -> Q -> float) : Prop :=
  forall b s r, represents b = Some (s, r) ->
    pow s 1%Q = s
    /\ List.In (pow s (1 # 2)%Q) (ulps2 (sqrt s))
    /\ List.In (pow s (-1 # 2)%Q) (ulps2 (1 / sqrt s)).

(** ** Tables used as examples *)

(** The text Transit followed by a NUL character. *)
Definition Transit_NUL : string :=
  String.append "Transit" (String Ascii.zero EmptyString).

Definition star_planet (uT uR uA : u.name) (t r a : float) : table :=
  [:: ("st_teff"%string, Quantity [:: t] (named uT));
      ("st_rad"%string, Quantity [:: r] (named uR));
      ("pl_orbsmax"%string, Quantity [:: a] (named uA))].

(** The Sun and the Earth: 5778 K, one solar radius, one astronomical unit. *)
Definition sun_earth : table := star_planet u.K u.solRad u.AU 5778 1 1.

Definition discovery : table :=
  [:: ("pl_discmethod"%string,
       StrColumn [:: "Transit"%string; "Radial Velocity"%string; "Transit"%string]);
      ("pl_orbper"%string, Quantity [:: 1%float; nan; 3%float] (named u.day))].

(** * Properties *)

(** ** Binary64 arithmetic *)

Lemma iter_succ_add d n : Pos.iter Pos.succ d n = (d + n)%positive.
Proof.
elim/Pos.peano_ind: n => [|n IH]; first by rewrite /= Pos.add_1_r.
by rewrite Pos.iter_succ IH Pos.add_succ_r.
Qed.

Lemma Prim2SF_one : Prim2SF 1 = S754_finite false 4503599627370496 (-52).
Proof. reflexivity. Qed.

(** Multiplying a binary64 number by 1.0 is exact. *)
Lemma SF64mul_one_r x : valid_binary x = true -> SF64mul x (Prim2SF 1) = x.
Proof.
rewrite Prim2SF_one /SF64mul.
case: x => [s|s| |s m e].
- by case: s.
- by case: s.
- by [].
rewrite /valid_binary /bounded /canonical_mantissa /SFmul.
move=> /andP [/Z.eqb_eq Hc /Z.leb_le He].
rewrite Pos.mul_comm.
have -> : (4503599627370496 * m)%positive = Pos.iter xO m 52 by reflexivity.
rewrite /binary_round_aux /shr_fexp.
have Hd : Zdigits2 (Zpos (Pos.iter xO m 52)) = (Zpos (digits2_pos m) + 52)%Z.
  rewrite /Zdigits2.
  have -> : digits2_pos (Pos.iter xO m 52)
            = Pos.iter Pos.succ (digits2_pos m) 52 by reflexivity.
  rewrite iter_succ_add; lia.
rewrite Hd.
have -> : (Z.pos (digits2_pos m) + 52 + (e + -52)
           = Z.pos (digits2_pos m) + e)%Z by lia.
rewrite Hc.
have -> : (e - (e + -52) = 52)%Z by lia.
rewrite /shr /shr_record_of_loc.
have -> : iter_pos shr_1 52
            {| shr_m := Z.pos (Pos.iter xO m 52); shr_r := false; shr_s := false |}
          = {| shr_m := Z.pos m; shr_r := false; shr_s := false |}
  by reflexivity.
rewrite [shr_m _]/= [loc_of_shr_record _]/= [round_nearest_even _ _]/=.
have -> : (e + -52 + 52 = e)%Z by lia.
rewrite [Zdigits2 _]/= Hc Z.sub_diag [shr_m _]/=.
have -> : (e <=? emax - prec)%Z = true by apply/Z.leb_le.
by case: s.
Qed.

Lemma mul_one_r (x : float) : (x * 1)%float = x.
Proof.
apply: Prim2SF_inj; rewrite mul_spec; apply: SF64mul_one_r.
exact: Prim2SF_valid.
Qed.

Lemma is_finite_SF (x : float) :
  is_finite x = match Prim2SF x with
                | S754_zero _ | S754_finite _ _ _ => true
                | _ => false
                end.
Proof.
rewrite /is_finite /is_nan /is_infinity !FloatAxioms.eqb_spec abs_spec.
have -> : Prim2SF infinity = S754_infinity false by reflexivity.
case: (Prim2SF x) => [s|s| |s m e] //=.
- by case: s.
- rewrite /SFeqb /SFcompare Z.compare_refl Pos.compare_cont_refl.
  by case: s.
Qed.

Lemma is_nan_SF (x : float) :
  is_nan x = match Prim2SF x with S754_nan => true | _ => false end.
Proof.
rewrite /is_nan FloatAxioms.eqb_spec.
case: (Prim2SF x) => [s|s| |s m e] //=.
- by case: s.
- rewrite /SFeqb /SFcompare Z.compare_refl Pos.compare_cont_refl.
  by case: s.
Qed.

Lemma nan_not_finite x : is_nan x = true -> is_finite x = false.
Proof. by rewrite is_nan_SF is_finite_SF; case: (Prim2SF x). Qed.

Lemma mul_not_finite_l x y :
  is_finite x = false -> is_finite (x * y) = false.
Proof.
rewrite !is_finite_SF mul_spec /SF64mul.
by case: (Prim2SF x) => [s|s| |s m e] // _; case: (Prim2SF y).
Qed.

Lemma mul_not_finite_r x y :
  is_finite y = false -> is_finite (x * y) = false.
Proof.
rewrite !is_finite_SF mul_spec /SF64mul.
by case: (Prim2SF y) => [s|s| |s m e] // _; case: (Prim2SF x).
Qed.

Lemma mul_nan_r x y : is_nan y = true -> is_nan (x * y) = true.
Proof.
rewrite !is_nan_SF mul_spec /SF64mul.
by case: (Prim2SF y) => [s|s| |s m e] // _; case: (Prim2SF x).
Qed.

Lemma div_not_finite_l x y :
  is_finite x = false -> is_finite (x / y) = false.
Proof.
rewrite !is_finite_SF div_spec /SF64div.
by case: (Prim2SF x) => [s|s| |s m e] // _; case: (Prim2SF y).
Qed.

Lemma div_nan_r x y : is_nan y = true -> is_finite (x / y) = false.
Proof.
rewrite is_nan_SF is_finite_SF div_spec /SF64div.
by case: (Prim2SF y) => [s|s| |s m e] // _; case: (Prim2SF x).
Qed.

Lemma sqrt_not_finite x : is_finite x = false -> is_finite (sqrt x) = false.
Proof.
rewrite !is_finite_SF sqrt_spec /SF64sqrt.
by case: (Prim2SF x) => [s|s| |s m e] // _; case: s.
Qed.

(** ** Lookup and the shape of tables *)

Lemma getitem_all (P : column -> bool) archive name c :
  all (fun p => P p.2) archive -> getitem archive name = Ok c -> P c.
Proof.
elim: archive => [|[n c0] rest IH] //= /andP [Hc Hrest].
by case: (n == name) => [[<-]|]; [|exact: IH].
Qed.

Lemma getitem_size archive name c :
  well_formed archive -> getitem archive name = Ok c ->
  col_size c = nrows archive.
Proof.
case/andP => _ Hall Hget; apply/eqP.
exact: (getitem_all (P := fun c => col_size c == nrows archive) Hall Hget).
Qed.

Lemma getitem_absent archive name :
  name \notin [seq p.1 | p <- archive] ->
  getitem archive name = Raise (KeyError name).
Proof.
elim: archive => [|[n c] rest IH] //=.
by rewrite inE negb_or eq_sym => /andP [/negbTE -> /IH].
Qed.

Lemma getitem_present archive name c :
  uniq [seq p.1 | p <- archive] -> List.In (name, c) archive ->
  getitem archive name = Ok c.
Proof.
elim: archive => [|[n c0] rest IH] //= /andP [Hn Hu] [[-> ->]|Hin].
  by rewrite eqxx.
case: eqP => [En|_]; last exact: IH.
move: Hn; rewrite En; case/negP.
elim: rest Hin {IH Hu} => [|[n1 c1] rest IH] //= [[-> _]|Hin].
  by rewrite inE eqxx.
by rewrite inE IH ?orbT.
Qed.

(** ** Cell 10, row by row *)

Section Rows.

Variable pow : float -> Q -> float.
Variables (archive : table) (vT vR vA : seq float) (uT uR uA : CompositeUnit).
Hypothesis HT : getitem archive "st_teff" = Ok (Quantity vT uT).
Hypothesis HR : getitem archive "st_rad" = Ok (Quantity vR uR).
Hypothesis HA : getitem archive "pl_orbsmax" = Ok (Quantity vA uA).
Hypothesis Hwf : well_formed archive.

Lemma sizes : size vT = nrows archive /\ size vR = nrows archive
              /\ size vA = nrows archive.
Proof.
by rewrite -{1}(getitem_size Hwf HT) -{1}(getitem_size Hwf HR)
           -(getitem_size Hwf HA).
Qed.

Lemma ratio_rows :
  exists q, ratio archive = Ok (Quantity q (unit_div uR uA))
    /\ size q = nrows archive
    /\ forall i, i < nrows archive ->
         nth nan q i = (nth nan vR i / (2 * nth nan vA i))%float.
Proof.
case: sizes => [_ [ER EA]].
rewrite /ratio /rstar /a HR HA /= /broadcast size_map ER EA eqxx /=.
eexists; split; first by reflexivity.
split; first by rewrite size_map size_zip size_map ER EA minnn.
move=> i Hi.
rewrite (nth_map (nan, nan)) ?size_zip ?size_map ?ER ?EA ?minnn //.
rewrite nth_zip ?size_map ?ER ?EA //=.
by rewrite (nth_map nan) ?EA.
Qed.

Lemma teq_rows :
  exists vals,
    teq pow archive = Ok (Quantity vals (decompose_unit (teq_unit uT uR uA)))
    /\ size vals = nrows archive
    /\ forall i, i < nrows archive ->
         nth nan vals i
         = (nth nan vT i * sqrt (nth nan vR i / (2 * nth nan vA i))
            * decompose_scale pow (teq_unit uT uR uA))%float.
Proof.
case: sizes => [ET _].
case: ratio_rows => q [Hq [Eq Hnth]].
rewrite /teq /teff HT Hq /= /broadcast size_map ET Eq eqxx /=.
eexists; split; first by reflexivity.
split; first by rewrite !size_map size_zip size_map ET Eq minnn.
move=> i Hi.
rewrite (nth_map nan) ?size_map ?size_zip ?size_map ?ET ?Eq ?minnn //.
rewrite (nth_map (nan, nan)) ?size_zip ?size_map ?ET ?Eq ?minnn //.
rewrite nth_zip ?size_map ?ET ?Eq //=.
by rewrite (nth_map nan) ?Eq // Hnth.
Qed.

End Rows.

(** ** Dimensions *)

Ltac unfold_units :=
  rewrite /same_dimension /decompose_unit /si_exponent /teq_unit
          /unit_mul /unit_pow /unit_div /= /named /=.


Lemma si_exponent_teq_unit uT uR uA d :
  (si_exponent (teq_unit uT uR uA) d
   == si_exponent uT d + (si_exponent uR d - si_exponent uA d) * (1 # 2))%Q.
Proof. by case: d; unfold_units; ring. Qed.

Lemma si_exponent_idem u0 d :
  (si_exponent (si_exponent u0) d == si_exponent u0 d)%Q.
Proof. by case: d; unfold_units; ring. Qed.

Lemma si_exponent_SI u0 d :
  (forall b, represents b <> None -> (u0 b == 0)%Q) ->
  (si_exponent u0 d == u0 d)%Q.
Proof.
move=> H.
have HAU : (u0 u.AU == 0)%Q by apply: H.
have HsR : (u0 u.solRad == 0)%Q by apply: H.
have HjR : (u0 u.jupiterRad == 0)%Q by apply: H.
have Hday : (u0 u.day == 0)%Q by apply: H.
have HmK : (u0 u.mK == 0)%Q by apply: H.
by case: d; unfold_units; lra.
Qed.

Lemma T_eq_0 t r a0 : T_eq 0 t r a0 = (t * sqrt (r / (2 * a0)))%float.
Proof.
rewrite /T_eq.
have -> : sqrt (sqrt (1 - 0)) = 1%float by reflexivity.
exact: mul_one_r.
Qed.

(** ** The conversion factor of cell 10 *)

Lemma temperature_symbols b : has_dimension u.K b -> b = u.K \/ b = u.mK.
Proof. by case: b => //; tauto. Qed.

Lemma length_symbols b :
  has_dimension u.m b ->
  b = u.m \/ b = u.AU \/ b = u.solRad \/ b = u.jupiterRad.
Proof. by case: b => //; tauto. Qed.

Lemma teq_unit_is_kelvin bT bR bA :
  has_dimension u.K bT -> has_dimension u.m bR -> has_dimension u.m bA ->
  same_unit (decompose_unit (teq_unit (named bT) (named bR) (named bA)))
            (named u.K).
Proof.
move=> /temperature_symbols HT /length_symbols HR /length_symbols HA.
by case: HT => ->; case: HR => [|[|[|]]] ->; case: HA => [|[|[|]]] ->; case.
Qed.

Lemma pow_halves_accurate : pow_accurate pow_halves.
Proof.
by case=> s r //= [<- _]; rewrite /ulps2 /=; tauto.
Qed.

Ltac scale_by_cases pow :=
  match goal with
  | |- context [decompose_scale pow ?u0] =>
      let t := eval vm_compute in (decompose_scale pow u0) in
      change (decompose_scale pow u0) with t
  end;
  repeat match goal with
    | H : pow ?c ?p = _ |- context [pow ?c ?p] => rewrite H
    | H : _ = pow ?c ?p \/ _ |- context [pow ?c ?p] =>
        destruct H as [<-|[<-|[<-|[<-|[<-|[]]]]]]
    end;
  vm_compute; reflexivity.

(** With an accurate [pow], the scale by which decompose takes
    [bT * sqrt (bR / bA)] to kelvin is the square root of
    [si_value bT ^ 2 * si_value bR / si_value bA] to 10^-14. *)
Lemma teq_scale_is_conversion pow bT bR bA :
  pow_accurate pow ->
  has_dimension u.K bT -> has_dimension u.m bR -> has_dimension u.m bA ->
  is_sqrt_of (decompose_scale pow (teq_unit (named bT) (named bR) (named bA)))
             (conversion_squared bT bR bA) = true.
Proof.
move=> Hacc /temperature_symbols HT /length_symbols HR /length_symbols HA.
have [HmK _] := Hacc u.mK _ _ erefl.
have [_ [HAUp HAUm]] := Hacc u.AU _ _ erefl.
have [_ [HsRp HsRm]] := Hacc u.solRad _ _ erefl.
have [_ [HjRp HjRm]] := Hacc u.jupiterRad _ _ erefl.
rewrite /ulps2 /= in HAUp HAUm HsRp HsRm HjRp HjRm.
case: HT => ->; case: HR => [|[|[|]]] ->; case: HA => [|[|[|]]] ->;
  scale_by_cases pow.
Qed.

(** ** Cell 10: the equilibrium temperature *)

(** C1.  On a table whose st_teff is in a temperature unit and whose st_rad
    and pl_orbsmax are in length units, cell 10 returns one value per row, in
    kelvin.  The value of row i is the formula
    T_eq = T_eff * sqrt (R_star / (2 a)) * (1 - A_B)^(1/4) at A_B = 0, where
    the albedo factor is exactly 1, on that row's three magnitudes, times one
    factor for the whole column: the number of kelvin that one unit of
    st_teff times the square root of a unit of st_rad over a unit of
    pl_orbsmax is, to a relative error of at most 10^-14. *)
Theorem teq_is_T_eq pow archive vT bT vR bR vA bA :
  pow_accurate pow ->
  well_formed archive ->
  getitem archive "st_teff" = Ok (Quantity vT (named bT)) ->
  getitem archive "st_rad" = Ok (Quantity vR (named bR)) ->
  getitem archive "pl_orbsmax" = Ok (Quantity vA (named bA)) ->
  has_dimension u.K bT -> has_dimension u.m bR -> has_dimension u.m bA ->
  exists vals u' s,
    teq pow archive = Ok (Quantity vals u')
    /\ same_unit u' (named u.K)
    /\ size vals = nrows archive
    /\ (forall i, i < nrows archive ->
          nth nan vals i
          = (T_eq 0 (nth nan vT i) (nth nan vR i) (nth nan vA i) * s)%float)
    /\ is_sqrt_of s (conversion_squared bT bR bA) = true.
Proof.
move=> Hacc Hwf HT HR HA dT dR dA.
case: (teq_rows pow HT HR HA Hwf) => vals [Hteq [Hsize Hnth]].
exists vals, (decompose_unit (teq_unit (named bT) (named bR) (named bA))),
  (decompose_scale pow (teq_unit (named bT) (named bR) (named bA))).
split=> //; split; first exact: teq_unit_is_kelvin.
split=> //; split; last exact: teq_scale_is_conversion.
by move=> i Hi; rewrite T_eq_0 Hnth.
Qed.

Lemma teq_is_T_eq_witness :
  exists vals u' s,
    teq pow_halves sun_earth = Ok (Quantity vals u')
    /\ same_unit u' (named u.K)
    /\ size vals = nrows sun_earth
    /\ (forall i, i < nrows sun_earth ->
          nth nan vals i
          = (T_eq 0 (nth nan [:: 5778%float] i) (nth nan [:: 1%float] i)
                    (nth nan [:: 1%float] i) * s)%float)
    /\ is_sqrt_of s (conversion_squared u.K u.solRad u.AU) = true.
Proof.
exact: (@teq_is_T_eq pow_halves sun_earth [:: 5778%float] u.K
          [:: 1%float] u.solRad [:: 1%float] u.AU
          pow_halves_accurate erefl erefl erefl erefl erefl erefl erefl).
Defined.




(** C3, as the code has it.  When st_rad and pl_orbsmax have the same
    dimension, the unit of the result is the unit of st_teff reduced to SI
    base units: it has the dimension of st_teff, and it is the unit of
    st_teff itself when that is written in SI base units (kelvin). *)
Theorem teq_unit_is_SI_unit_of_teff pow archive vT uT vR uR vA uA :
  well_formed archive ->
  getitem archive "st_teff" = Ok (Quantity vT uT) ->
  getitem archive "st_rad" = Ok (Quantity vR uR) ->
  getitem archive "pl_orbsmax" = Ok (Quantity vA uA) ->
  same_dimension uR uA ->
  exists vals u',
    teq pow archive = Ok (Quantity vals u')
    /\ same_unit u' (decompose_unit uT)
    /\ same_dimension u' uT
    /\ ((forall b, represents b <> None -> (uT b == 0)%Q) -> same_unit u' uT).
Proof.
move=> Hwf HT HR HA Hdim.
case: (teq_rows pow HT HR HA Hwf) => vals [Hteq _].
exists vals, (decompose_unit (teq_unit uT uR uA)); split=> //.
have Hu : same_unit (decompose_unit (teq_unit uT uR uA)) (decompose_unit uT).
  move=> d; rewrite /decompose_unit si_exponent_teq_unit.
  have := Hdim d; lra.
split=> //; split.
  move=> d; rewrite /decompose_unit si_exponent_idem si_exponent_teq_unit.
  have := Hdim d; lra.
by move=> HSI b; rewrite (Hu b) /decompose_unit; exact: si_exponent_SI.
Qed.

Lemma teq_unit_is_SI_unit_of_teff_witness :
  exists vals u',
    teq pow_halves sun_earth = Ok (Quantity vals u')
    /\ same_unit u' (decompose_unit (named u.K))
    /\ same_dimension u' (named u.K)
    /\ ((forall b, represents b <> None -> (named u.K b == 0)%Q) ->
        same_unit u' (named u.K)).
Proof.
apply: (@teq_unit_is_SI_unit_of_teff pow_halves sun_earth [:: 5778%float]
          (named u.K) [:: 1%float] (named u.solRad) [:: 1%float] (named u.AU)
          erefl erefl erefl erefl).
by case.
Defined.

(** C3 as stated fails: with st_teff in millikelvin the result is in kelvin,
    another unit than the one of the input column. *)
Lemma millikelvin_comes_out_in_kelvin :
  exists vals u',
    teq pow_halves (star_planet u.mK u.solRad u.AU 5778000 1 1)
    = Ok (Quantity vals u')
    /\ ~ same_unit u' (named u.mK).
Proof.
do 2!eexists; split; first by reflexivity.
by move=> /(_ u.mK).
Qed.

(** C4, as the code has it.  A row whose st_teff or st_rad is not finite, or
    whose pl_orbsmax is NaN, gets a value that is not finite, and the cell
    raises nothing. *)
Theorem not_finite_rows_propagate pow archive vT uT vR uR vA uA i :
  well_formed archive ->
  getitem archive "st_teff" = Ok (Quantity vT uT) ->
  getitem archive "st_rad" = Ok (Quantity vR uR) ->
  getitem archive "pl_orbsmax" = Ok (Quantity vA uA) ->
  i < nrows archive ->
  is_finite (nth nan vT i) = false \/ is_finite (nth nan vR i) = false
    \/ is_nan (nth nan vA i) = true ->
  exists vals u',
    teq pow archive = Ok (Quantity vals u')
    /\ is_finite (nth nan vals i) = false.
Proof.
move=> Hwf HT HR HA Hi Hrow.
case: (teq_rows pow HT HR HA Hwf) => vals [Hteq [_ Hnth]].
exists vals, (decompose_unit (teq_unit uT uR uA)); split=> //.
rewrite (Hnth i Hi); apply: mul_not_finite_l.
case: Hrow => [Ht|[Hr|Ha]]; first exact: mul_not_finite_l.
  by apply: mul_not_finite_r; apply: sqrt_not_finite; apply: div_not_finite_l.
apply: mul_not_finite_r; apply: sqrt_not_finite; apply: div_nan_r.
exact: mul_nan_r.
Qed.

Lemma not_finite_rows_propagate_witness :
  exists vals u',
    teq pow_halves (star_planet u.K u.solRad u.AU 5778 infinity 1)
    = Ok (Quantity vals u')
    /\ is_finite (nth nan vals 0) = false.
Proof.
apply: (@not_finite_rows_propagate pow_halves
          (star_planet u.K u.solRad u.AU 5778 infinity 1)
          [:: 5778%float] (named u.K) [:: infinity] (named u.solRad)
          [:: 1%float] (named u.AU) 0 erefl erefl erefl erefl erefl).
by right; left.
Defined.

(** C4 as stated fails: an infinite pl_orbsmax beside a finite st_teff and
    st_rad gives the finite value 0. *)
Lemma infinite_orbit_gives_zero :
  is_finite infinity = false
  /\ exists u',
       teq pow_halves (star_planet u.K u.solRad u.AU 5778 1 infinity)
       = Ok (Quantity [:: 0%float] u')
       /\ is_finite 0 = true.
Proof. by split; [|eexists; split; [reflexivity|]]. Qed.

(** The scale that takes K solRad^(1/2) AU^(-1/2) to kelvin. *)
Lemma sun_earth_scale pow :
  decompose_scale pow (teq_unit (named u.K) (named u.solRad) (named u.AU))
  = (1 * pow 695700000 (1 # 2)%Q * pow 149597870700 (-1 # 2)%Q)%float.
Proof. reflexivity. Qed.

(** C5.  On the Sun-Earth table (5778 K, 1 solRad, 1 AU) the result is one
    value in kelvin between 278 and 279, so within 0.5 K, less than 1 percent,
    of 278.5 K.  This holds for every [pow] that gives the two conversion
    factors, the square root of the solar radius and the inverse square root
    of the astronomical unit in metres, to within two units in the last
    place. *)
Theorem sun_earth_is_278_5_K (pow : float -> Q -> float) :
  List.In (pow 695700000%float (1 # 2)%Q) (ulps2 (sqrt 695700000)) ->
  List.In (pow 149597870700%float (-1 # 2)%Q)
          (ulps2 (1 / sqrt 149597870700)) ->
  exists v u',
    teq pow sun_earth = Ok (Quantity [:: v] u')
    /\ same_unit u' (named u.K)
    /\ (278 <=? v)%float && (v <=? 279)%float = true.
Proof.
move=> H1 H2.
case: (teq_rows pow (archive := sun_earth) erefl erefl erefl erefl)
  => vals [Hteq [Hsize Hnth]].
case: vals Hsize Hnth Hteq => [|v [|? ?]] //= _ Hnth Hteq.
exists v, (decompose_unit (teq_unit (named u.K) (named u.solRad) (named u.AU))).
split=> //; split; first by case.
move: (Hnth 0 erefl) => /= ->; rewrite sun_earth_scale.
rewrite /ulps2 /= in H1 H2.
destruct H1 as [<-|[<-|[<-|[<-|[<-|[]]]]]];
  destruct H2 as [<-|[<-|[<-|[<-|[<-|[]]]]]]; reflexivity.
Qed.

Lemma sun_earth_is_278_5_K_witness :
  exists v u',
    teq pow_halves sun_earth = Ok (Quantity [:: v] u')
    /\ same_unit u' (named u.K)
    /\ (278 <=? v)%float && (v <=? 279)%float = true.
Proof.
apply: (@sun_earth_is_278_5_K pow_halves); rewrite /ulps2 /=; tauto.
Defined.

(** ** Cell 8: masks and boolean indexing *)

(** Boolean indexing keeps the rows at which the mask is true, in order. *)
Lemma mask_rows (T : Type) (x0 : T) (m : bitseq) (s : seq T) :
  size m = size s ->
  mask m s = [seq nth x0 s i | i <- filter (nth false m) (iota 0 (size s))].
Proof.
move=> Hsize.
rewrite -{1}(mkseq_nth x0 s) /mkseq -map_mask; congr map.
by rewrite -{1}(mkseq_nth false m) /mkseq Hsize -filter_mask.
Qed.

Lemma getitem_mask_rows c m :
  size m = col_size c ->
  exists c', getitem_mask c m = Ok c'
    /\ col_size c' = count id m /\ slice_of m c c'.
Proof.
case: c => [v u0|d] /= Hsize; rewrite Hsize eqxx; eexists;
  (split; first by reflexivity); rewrite /= size_mask //; split=> //.
  by split=> //; exact: mask_rows.
exact: mask_rows.
Qed.

Lemma table_getitem_mask_columns n archive m :
  all (fun p => col_size p.2 == n) archive -> size m = n ->
  exists filtered,
    table_getitem_mask archive m = Ok filtered
    /\ [seq p.1 | p <- filtered] = [seq p.1 | p <- archive]
    /\ all (fun p => col_size p.2 == count id m) filtered
    /\ forall name c, getitem archive name = Ok c ->
         exists c', getitem filtered name = Ok c' /\ getitem_mask c m = Ok c'.
Proof.
move=> Hall Hm; elim: archive Hall => [|[n0 c0] rest IH] /=.
  by move=> _; exists [::].
case/andP => /eqP Hc0 /IH [filtered [Hf [Hnames [Hsizes Hcols]]]].
have [c0' [Hc0' [Hsize0 _]]] : exists c', getitem_mask c0 m = Ok c'
    /\ col_size c' = count id m /\ slice_of m c0 c'.
  by apply: getitem_mask_rows; rewrite Hc0.
rewrite Hc0' Hf /=; exists ((n0, c0') :: filtered); split=> //.
split; first by rewrite /= Hnames.
split; first by rewrite /= Hsize0 eqxx.
move=> name c /=; case: (n0 == name) => [[<-]|]; last exact: Hcols.
by exists c0'.
Qed.

(** C6.  Filtering a table by a mask as long as the table gives a table with
    as many rows as the mask has true entries; its columns are those of the
    table, each sliced as cell 8 slices it: same unit and kind of column, and
    the entries of the rows at which the mask is true, in their order. *)
Theorem filter_keeps_true_rows archive m :
  well_formed archive -> size m = nrows archive ->
  exists filtered,
    table_getitem_mask archive m = Ok filtered
    /\ nrows filtered = count id m
    /\ [seq p.1 | p <- filtered] = [seq p.1 | p <- archive]
    /\ forall name c, getitem archive name = Ok c ->
         exists c',
           getitem filtered name = Ok c'
           /\ subset archive name m = Ok c'
           /\ col_size c' = count id m
           /\ slice_of m c c'.
Proof.
move=> Hwf Hm; case/andP: (Hwf) => _ Hall.
case: (table_getitem_mask_columns Hall Hm)
  => filtered [Hf [Hnames [Hsizes Hcols]]].
exists filtered; split=> //; split.
  case: filtered Hsizes Hnames {Hf Hcols} => [|[n0 c0] rest] /=.
    by case: archive Hm {Hwf Hall} => [|[? ?] ?] //=; case: m.
  by case/andP => /eqP.
split=> // name c Hget.
case: (Hcols name c Hget) => c' [Hget' Hslice].
exists c'; split=> //; split; first by rewrite /subset Hget.
have [c'' [Hc'' [Hsize Hrows]]] : exists c', getitem_mask c m = Ok c'
    /\ col_size c' = count id m /\ slice_of m c c'.
  by apply: getitem_mask_rows; rewrite Hm (getitem_size Hwf Hget).
by move: Hc'' Hsize Hrows; rewrite Hslice => [[<-]].
Qed.

Lemma filter_keeps_true_rows_witness :
  exists filtered,
    table_getitem_mask discovery [:: true; false; true] = Ok filtered
    /\ nrows filtered = count id [:: true; false; true]
    /\ [seq p.1 | p <- filtered] = [seq p.1 | p <- discovery]
    /\ forall name c, getitem discovery name = Ok c ->
         exists c',
           getitem filtered name = Ok c'
           /\ subset discovery name [:: true; false; true] = Ok c'
           /\ col_size c' = count id [:: true; false; true]
           /\ slice_of [:: true; false; true] c c'.
Proof.
exact: (@filter_keeps_true_rows discovery [:: true; false; true] erefl erefl).
Defined.

(** C7, as the code has it.  On a column of strings,
    [archive[name] == text] is a mask with one entry per row, true exactly
    at the rows whose entry equals [text] once the trailing NUL characters
    of both are dropped; so, when neither the entries nor [text] end in a
    NUL character, exactly at the rows whose entry is [text].  On the
    discovery methods Transit, Radial Velocity, Transit the mask for Transit
    is true, false, true. *)
Theorem column_equals_marks_equal_rows archive name text d :
  getitem archive name = Ok (StrColumn d) ->
  (exists m,
     column_equals archive name text = Ok (Elementwise m)
     /\ size m = size d
     /\ (forall i, i < size d ->
           (nth false m i = true
            <-> rstrip_nul (nth EmptyString d i) = rstrip_nul text))
     /\ (rstrip_nul text = text -> all (fun x => rstrip_nul x == x) d ->
         forall i, i < size d ->
           (nth false m i = true <-> nth EmptyString d i = text)))
  /\ (d = [:: "Transit"; "Radial Velocity"; "Transit"]%string ->
      column_equals archive name "Transit"
      = Ok (Elementwise [:: true; false; true])).
Proof.
move=> Hget; rewrite /column_equals Hget /=; split; last by move=> ->.
eexists; split; first by reflexivity.
split; first by rewrite size_map.
have Hrow i : i < size d ->
    nth false [seq rstrip_nul x == rstrip_nul text | x <- d] i = true
    <-> rstrip_nul (nth EmptyString d i) = rstrip_nul text.
  move=> Hi; rewrite (nth_map EmptyString) //.
  by split=> [/eqP|->] //; exact: eqxx.
split=> // Htext /(all_nthP EmptyString) Hd i Hi.
by rewrite (Hrow i Hi) Htext (eqP (Hd i Hi)).
Qed.

Lemma column_equals_marks_equal_rows_witness :
  (exists m,
     column_equals discovery "pl_discmethod" Transit_NUL = Ok (Elementwise m)
     /\ size m = 3
     /\ (forall i, i < 3 ->
           (nth false m i = true
            <-> rstrip_nul
                  (nth EmptyString
                     [:: "Transit"; "Radial Velocity"; "Transit"]%string i)
                = rstrip_nul Transit_NUL))
     /\ (rstrip_nul Transit_NUL = Transit_NUL ->
         all (fun x => rstrip_nul x == x)
           [:: "Transit"; "Radial Velocity"; "Transit"]%string ->
         forall i, i < 3 ->
           (nth false m i = true
            <-> nth EmptyString
                  [:: "Transit"; "Radial Velocity"; "Transit"]%string i
                = Transit_NUL)))
  /\ ([:: "Transit"; "Radial Velocity"; "Transit"]%string
      = [:: "Transit"; "Radial Velocity"; "Transit"]%string ->
      column_equals discovery "pl_discmethod" "Transit"
      = Ok (Elementwise [:: true; false; true])).
Proof.
exact: (@column_equals_marks_equal_rows discovery "pl_discmethod"%string
          Transit_NUL [:: "Transit"; "Radial Velocity"; "Transit"]%string
          erefl).
Defined.

(** C7 as stated fails: compared with the text Transit followed by a NUL
    character, which no entry equals, the rows that hold Transit are
    marked. *)
Lemma trailing_NUL_still_matches :
  column_equals discovery "pl_discmethod" Transit_NUL
  = Ok (Elementwise [:: true; false; true])
  /\ "Transit"%string <> Transit_NUL
  /\ "Radial Velocity"%string <> Transit_NUL.
Proof. by []. Qed.

Lemma is_finiteP (x : float) :
  is_finite x = true <-> x <> nan /\ x <> infinity /\ x <> neg_infinity.
Proof.
split=> [Hx|[Hnan [Hinf Hninf]]].
  by split; [|split]; move=> E; move: Hx; rewrite E; vm_compute.
rewrite is_finite_SF; case E: (Prim2SF x) => [s|[|]| |s m e] //.
- by case: Hninf; apply: Prim2SF_inj; rewrite E.
- by case: Hinf; apply: Prim2SF_inj; rewrite E.
- by case: Hnan; apply: Prim2SF_inj; rewrite E.
Qed.

(** C8.  [np.isfinite] of a quantity column is a mask with one entry per row,
    true exactly at the rows whose magnitude is neither NaN nor an infinity;
    on the magnitudes 1, NaN, 3 it is true, false, true. *)
Theorem isfinite_marks_finite_rows v u0 :
  exists m,
    np_isfinite (Quantity v u0) = Ok m
    /\ size m = size v
    /\ (forall i, i < size v ->
          (nth false m i = true
           <-> nth nan v i <> nan /\ nth nan v i <> infinity
               /\ nth nan v i <> neg_infinity))
    /\ np_isfinite (Quantity [:: 1%float; nan; 3%float] u0)
       = Ok [:: true; false; true].
Proof.
eexists; split; first by reflexivity.
split; first by rewrite size_map.
split=> // i Hi.
by rewrite (nth_map nan) //; exact: is_finiteP.
Qed.

(** ** Cell 4: columns by name *)

(** C9.  Asking a table for a name that none of its columns has raises
    KeyError, and returns no column; asking for the name of a column returns
    that column. *)
Theorem getitem_by_name archive name :
  uniq [seq p.1 | p <- archive] ->
  (name \notin [seq p.1 | p <- archive] ->
   getitem archive name = Raise (KeyError name)
   /\ forall c, getitem archive name <> Ok c)
  /\ (forall c, List.In (name, c) archive -> getitem archive name = Ok c).
Proof.
move=> Huniq; split=> [Hnot|c Hin]; last exact: getitem_present.
by rewrite (getitem_absent Hnot).
Qed.

Lemma getitem_by_name_witness :
  getitem discovery "nonexistent" = Raise (KeyError "nonexistent"%string)
  /\ getitem discovery "pl_orbper"
     = Ok (Quantity [:: 1%float; nan; 3%float] (named u.day)).
Proof.
split.
  by case: (@getitem_by_name discovery "nonexistent"%string erefl)
       => /(_ erefl) [].
case: (@getitem_by_name discovery "pl_orbper"%string erefl) => _; apply.
by right; left.
Defined.

(** C10.  The masks [transits] and [rvs] are disjoint: no row is marked by
    both. *)
Theorem transits_rvs_disjoint archive m1 m2 :
  transits archive = Ok (Elementwise m1) ->
  rvs archive = Ok (Elementwise m2) ->
  forall i, nth false m1 i && nth false m2 i = false.
Proof.
rewrite /transits /rvs /column_equals.
case: (getitem archive _) => [[v u0|d]|e] //= [<-] [<-] i.
case: (ltnP i (size d)) => Hi; last by rewrite nth_default // size_map.
rewrite !(nth_map EmptyString) //.
by case: eqP => // ->.
Qed.

Lemma transits_rvs_disjoint_witness :
  nth false [:: true; false; true] 1 && nth false [:: false; true; false] 1
  = false.
Proof.
exact: (@transits_rvs_disjoint discovery [:: true; false; true]
          [:: false; true; false] erefl erefl 1).
Defined.

(** ** Further properties of the cells *)

Lemma getitem_in archive name :
  name \in [seq p.1 | p <- archive] -> exists c, getitem archive name = Ok c.
Proof.
elim: archive => [|[n c] rest IH] //=.
rewrite inE eq_sym; case: (n == name) => /=; first by exists c.
exact: IH.
Qed.

(** Cell 10 reads st_teff, st_rad and pl_orbsmax in this order: the KeyError
    it raises names the first of them that the table lacks. *)
Theorem teq_raises_first_missing_name pow archive :
  ("st_teff"%string \notin [seq p.1 | p <- archive] ->
   teq pow archive = Raise (KeyError "st_teff"%string))
  /\ ("st_teff"%string \in [seq p.1 | p <- archive] ->
      "st_rad"%string \notin [seq p.1 | p <- archive] ->
      teq pow archive = Raise (KeyError "st_rad"%string))
  /\ ("st_teff"%string \in [seq p.1 | p <- archive] ->
      "st_rad"%string \in [seq p.1 | p <- archive] ->
      "pl_orbsmax"%string \notin [seq p.1 | p <- archive] ->
      teq pow archive = Raise (KeyError "pl_orbsmax"%string)).
Proof.
split; [|split].
- by move=> /getitem_absent H; rewrite /teq /teff H.
- move=> /getitem_in [c Hc] /getitem_absent H.
  by rewrite /teq /teff Hc /= /ratio /rstar H.
- move=> /getitem_in [c Hc] /getitem_in [c' Hc'] /getitem_absent H.
  by rewrite /teq /teff Hc /= /ratio /rstar Hc' /= /a H.
Qed.

Lemma teq_raises_first_missing_name_witness :
  teq pow_halves discovery = Raise (KeyError "st_teff"%string)
  /\ teq pow_halves [:: ("st_teff"%string, StrColumn [::])]
     = Raise (KeyError "st_rad"%string).
Proof.
split.
  by case: (@teq_raises_first_missing_name pow_halves discovery)
       => /(_ erefl).
by case: (@teq_raises_first_missing_name pow_halves
            [:: ("st_teff"%string, StrColumn [::])])
     => _ [/(_ erefl erefl)].
Defined.

(** The histogram of cell 10 gets the finite values of teq, in their order,
    and nothing else; indexing teq.value by np.isfinite(teq) raises
    nothing. *)
Theorem hist_data_is_the_finite_part pow archive vT uT vR uR vA uA :
  well_formed archive ->
  getitem archive "st_teff" = Ok (Quantity vT uT) ->
  getitem archive "st_rad" = Ok (Quantity vR uR) ->
  getitem archive "pl_orbsmax" = Ok (Quantity vA uA) ->
  exists vals u' data,
    teq pow archive = Ok (Quantity vals u')
    /\ hist_data pow archive = Ok data
    /\ data = filter is_finite vals
    /\ all is_finite data
    /\ size data = count is_finite vals
    /\ size data <= nrows archive.
Proof.
move=> Hwf HT HR HA.
case: (teq_rows pow HT HR HA Hwf) => vals [Hteq [Hsize _]].
exists vals, (decompose_unit (teq_unit uT uR uA)), (filter is_finite vals).
split=> //; split.
  by rewrite /hist_data Hteq /= /ndarray_getitem size_map eqxx filter_mask.
split=> //; split; first exact: filter_all.
by rewrite size_filter -Hsize count_size.
Qed.

Lemma hist_data_is_the_finite_part_witness :
  exists vals u' data,
    teq pow_halves (star_planet u.K u.solRad u.AU 5778 infinity 1)
    = Ok (Quantity vals u')
    /\ hist_data pow_halves (star_planet u.K u.solRad u.AU 5778 infinity 1)
       = Ok data
    /\ data = filter is_finite vals
    /\ all is_finite data
    /\ size data = count is_finite vals
    /\ size data <= nrows (star_planet u.K u.solRad u.AU 5778 infinity 1).
Proof.
exact: (@hist_data_is_the_finite_part pow_halves
          (star_planet u.K u.solRad u.AU 5778 infinity 1)
          [:: 5778%float] (named u.K) [:: infinity] (named u.solRad)
          [:: 1%float] (named u.AU) erefl erefl erefl erefl).
Defined.

Lemma foldl_irreducible pow (u0 : CompositeUnit) (s : seq u.name) x :
  all (fun b => negb (isSome (represents b))) s ->
  foldl (fun scale b =>
           match represents b with
           | None => scale
           | Some (s, _) => (scale * pow s (Qred (u0 b)))%float
           end) x s = x.
Proof.
elim: s x => [|b s IH] x //= /andP [Hb Hs].
by rewrite IH //; move: Hb; case: (represents b).
Qed.

(** A unit whose scaled symbols all have power zero decomposes with the
    scale 1. *)
Lemma decompose_scale_unscaled pow u0 :
  (forall b, represents b <> None -> Qeq_bool (u0 b) 0 = true) ->
  decompose_scale pow u0 = 1%float.
Proof.
move=> H0; rewrite /decompose_scale; apply: foldl_irreducible.
rewrite /bases all_sort all_filter /= !implybT /=.
by rewrite (H0 u.AU) // (H0 u.solRad) // (H0 u.jupiterRad) // (H0 u.day) //
           (H0 u.mK).
Qed.

Lemma decompose_scale_same_units pow uT uR uA :
  (forall b, represents b <> None -> (uT b == 0)%Q) -> same_unit uR uA ->
  decompose_scale pow (teq_unit uT uR uA) = 1%float.
Proof.
move=> HT HRA; apply: decompose_scale_unscaled => b Hb.
apply/Qeq_bool_iff; rewrite /teq_unit /unit_mul /unit_pow /unit_div.
have := HT b Hb; have := HRA b; lra.
Qed.

(** When st_rad and pl_orbsmax are in the same unit and st_teff is in SI base
    units, decompose rescales nothing: the value of a row is exactly the
    formula on the row's three magnitudes. *)
Theorem teq_same_units_is_exact pow archive vT uT vR uR vA uA :
  well_formed archive ->
  getitem archive "st_teff" = Ok (Quantity vT uT) ->
  getitem archive "st_rad" = Ok (Quantity vR uR) ->
  getitem archive "pl_orbsmax" = Ok (Quantity vA uA) ->
  (forall b, represents b <> None -> (uT b == 0)%Q) ->
  same_unit uR uA ->
  exists vals u',
    teq pow archive = Ok (Quantity vals u')
    /\ size vals = nrows archive
    /\ forall i, i < nrows archive ->
         nth nan vals i
         = T_eq 0 (nth nan vT i) (nth nan vR i) (nth nan vA i).
Proof.
move=> Hwf HT HR HA HSI Hsame.
case: (teq_rows pow HT HR HA Hwf) => vals [Hteq [Hsize Hnth]].
exists vals, (decompose_unit (teq_unit uT uR uA)); split=> //; split=> // i Hi.
by rewrite (Hnth i Hi) decompose_scale_same_units // mul_one_r T_eq_0.
Qed.

Lemma teq_same_units_is_exact_witness :
  exists vals u',
    teq pow_halves (star_planet u.K u.AU u.AU 5778 1 1)
    = Ok (Quantity vals u')
    /\ size vals = nrows (star_planet u.K u.AU u.AU 5778 1 1)
    /\ forall i, i < nrows (star_planet u.K u.AU u.AU 5778 1 1) ->
         nth nan vals i
         = T_eq 0 (nth nan [:: 5778%float] i) (nth nan [:: 1%float] i)
                  (nth nan [:: 1%float] i).
Proof.
apply: (@teq_same_units_is_exact pow_halves
          (star_planet u.K u.AU u.AU 5778 1 1)
          [:: 5778%float] (named u.K) [:: 1%float] (named u.AU)
          [:: 1%float] (named u.AU) erefl erefl erefl erefl) => //.
by case.
Defined.

Lemma is_zero_SF (x : float) :
  is_zero x = match Prim2SF x with S754_zero _ => true | _ => false end.
Proof.
rewrite /is_zero FloatAxioms.eqb_spec.
have -> : Prim2SF zero = S754_zero false by reflexivity.
by case: (Prim2SF x) => [s|s| |s m e] //; case: s.
Qed.

Lemma mul_zero_r x y :
  is_finite x = true -> is_zero y = true -> is_zero (x * y) = true.
Proof.
rewrite is_finite_SF !is_zero_SF mul_spec /SF64mul.
by case: (Prim2SF x) => [s|s| |s m e] // _; case: (Prim2SF y).
Qed.

Lemma div_zero_not_finite x y : is_zero y = true -> is_finite (x / y) = false.
Proof.
rewrite is_zero_SF is_finite_SF div_spec /SF64div.
by case: (Prim2SF y) => [s|s| |s m e] // _; case: (Prim2SF x).
Qed.

(** A row whose pl_orbsmax is zero divides by zero: cell 10 raises nothing
    and the row gets a value that is not finite, which the histogram leaves
    out. *)
Theorem zero_orbit_is_not_finite pow archive vT uT vR uR vA uA i :
  well_formed archive ->
  getitem archive "st_teff" = Ok (Quantity vT uT) ->
  getitem archive "st_rad" = Ok (Quantity vR uR) ->
  getitem archive "pl_orbsmax" = Ok (Quantity vA uA) ->
  i < nrows archive ->
  is_zero (nth nan vA i) = true ->
  exists vals u',
    teq pow archive = Ok (Quantity vals u')
    /\ is_finite (nth nan vals i) = false.
Proof.
move=> Hwf HT HR HA Hi Hzero.
case: (teq_rows pow HT HR HA Hwf) => vals [Hteq [_ Hnth]].
exists vals, (decompose_unit (teq_unit uT uR uA)); split=> //.
rewrite (Hnth i Hi); apply: mul_not_finite_l; apply: mul_not_finite_r.
by apply: sqrt_not_finite; apply: div_zero_not_finite; apply: mul_zero_r.
Qed.

Lemma zero_orbit_is_not_finite_witness :
  exists vals u',
    teq pow_halves (star_planet u.K u.solRad u.AU 5778 1 0)
    = Ok (Quantity vals u')
    /\ is_finite (nth nan vals 0) = false.
Proof.
exact: (@zero_orbit_is_not_finite pow_halves
          (star_planet u.K u.solRad u.AU 5778 1 0)
          [:: 5778%float] (named u.K) [:: 1%float] (named u.solRad)
          [:: 0%float] (named u.AU) 0 erefl erefl erefl erefl erefl erefl).
Defined.

Lemma count_disjoint (T : Type) (p q : pred T) (s : seq T) :
  (forall x, p x && q x = false) -> count p s + count q s <= size s.
Proof.
move=> Hpq; elim: s => [|x s IH] //=.
have := Hpq x; case: (p x); case: (q x) => //= _;
  rewrite ?add0n ?add1n ?addSn ?addnS ?ltnS //; exact: leqW.
Qed.

(** The masks of cell 8 have one entry per row of the table, and together
    they select at most as many rows as the table has. *)
Theorem transits_rvs_cover_at_most_the_table archive m1 m2 :
  well_formed archive ->
  transits archive = Ok (Elementwise m1) ->
  rvs archive = Ok (Elementwise m2) ->
  size m1 = nrows archive /\ size m2 = nrows archive
  /\ count id m1 + count id m2 <= nrows archive.
Proof.
move=> Hwf; rewrite /transits /rvs /column_equals.
case Hget: (getitem archive _) => [[v u0|d]|e] //= [<-] [<-].
have Hd := getitem_size Hwf Hget; rewrite /= in Hd.
rewrite !size_map Hd; split=> //; split=> //.
rewrite !count_map -Hd; apply: count_disjoint => x /=.
by case: eqP => // ->.
Qed.

Lemma transits_rvs_cover_at_most_the_table_witness :
  size [:: true; false; true] = nrows discovery
  /\ size [:: false; true; false] = nrows discovery
  /\ count id [:: true; false; true] + count id [:: false; true; false]
     <= nrows discovery.
Proof.
exact: (@transits_rvs_cover_at_most_the_table discovery
          [:: true; false; true] [:: false; true; false] erefl erefl erefl).
Defined.

(** The x and y of a scatter plot of cell 8 have the same length: every
    column of the table can be indexed by the mask [transits] (or [rvs]),
    and each subset has as many rows as the mask has true entries. *)
Theorem subsets_are_aligned archive name text m col c :
  well_formed archive ->
  column_equals archive name text = Ok (Elementwise m) ->
  getitem archive col = Ok c ->
  exists c',
    subset archive col m = Ok c'
    /\ col_size c' = count id m
    /\ slice_of m c c'.
Proof.
move=> Hwf; rewrite /column_equals.
case Hget: (getitem archive name) => [[v u0|d]|e] //= [<-] Hcol.
rewrite /subset Hcol /=; apply: getitem_mask_rows.
by rewrite size_map (getitem_size Hwf Hcol) -(getitem_size Hwf Hget).
Qed.

Lemma subsets_are_aligned_witness :
  exists c',
    subset discovery "pl_orbper" [:: true; false; true] = Ok c'
    /\ col_size c' = count id [:: true; false; true]
    /\ slice_of [:: true; false; true]
         (Quantity [:: 1%float; nan; 3%float] (named u.day)) c'.
Proof.
exact: (@subsets_are_aligned discovery "pl_discmethod"%string
          "Transit"%string [:: true; false; true] "pl_orbper"%string
          (Quantity [:: 1%float; nan; 3%float] (named u.day))
          erefl erefl erefl).
Defined.

Lemma mask_eq_nseq (v : string) (d : seq string) :
  all (fun x => rstrip_nul x == x) d ->
  mask [seq rstrip_nul x == v | x <- d] d = nseq (count (pred1 v) d) v.
Proof.
elim: d => [|x d IH] //= /andP [/eqP Hx /IH ->].
by rewrite Hx; case: eqP => [->|_].
Qed.

(** Indexing a column of strings by its own mask [column == text] leaves
    only the text (without trailing NUL characters, which the comparison
    ignores and no entry has), once for every row that held it. *)
Theorem subset_by_own_mask archive name text d m :
  getitem archive name = Ok (StrColumn d) ->
  column_equals archive name text = Ok (Elementwise m) ->
  all (fun x => rstrip_nul x == x) d ->
  subset archive name m
  = Ok (StrColumn (nseq (count (pred1 (rstrip_nul text)) d)
                        (rstrip_nul text))).
Proof.
move=> Hget; rewrite /column_equals /subset Hget /= => [[<-]] Hd.
by rewrite size_map eqxx mask_eq_nseq.
Qed.

Lemma subset_by_own_mask_witness :
  subset discovery "pl_discmethod" [:: true; false; true]
  = Ok (StrColumn [:: "Transit"%string; "Transit"%string]).
Proof.
exact: (@subset_by_own_mask discovery "pl_discmethod"%string
          Transit_NUL
          [:: "Transit"; "Radial Velocity"; "Transit"]%string
          [:: true; false; true] erefl erefl erefl).
Defined.

Lemma decompose_scale_SI pow u0 :
  decompose_scale pow (decompose_unit u0) = 1%float.
Proof. by apply: decompose_scale_unscaled; case. Qed.

(** The result of cell 10 is in SI base units already: calling decompose on
    it again changes neither a magnitude nor the unit. *)
Theorem teq_is_decomposed pow archive vT uT vR uR vA uA :
  well_formed archive ->
  getitem archive "st_teff" = Ok (Quantity vT uT) ->
  getitem archive "st_rad" = Ok (Quantity vR uR) ->
  getitem archive "pl_orbsmax" = Ok (Quantity vA uA) ->
  exists vals u' u'',
    teq pow archive = Ok (Quantity vals u')
    /\ decompose pow (Quantity vals u') = Ok (Quantity vals u'')
    /\ same_unit u'' u'.
Proof.
move=> Hwf HT HR HA.
case: (teq_rows pow HT HR HA Hwf) => vals [Hteq _].
exists vals, (decompose_unit (teq_unit uT uR uA)),
  (decompose_unit (decompose_unit (teq_unit uT uR uA))).
split=> //; split; last by move=> d; exact: si_exponent_idem.
rewrite /decompose decompose_scale_SI; congr (Ok (Quantity _ _)).
by rewrite -[RHS]map_id; apply: eq_map => x; exact: mul_one_r.
Qed.

Lemma teq_is_decomposed_witness :
  exists vals u' u'',
    teq pow_halves sun_earth = Ok (Quantity vals u')
    /\ decompose pow_halves (Quantity vals u') = Ok (Quantity vals u'')
    /\ same_unit u'' u'.
Proof.
exact: (@teq_is_decomposed pow_halves sun_earth [:: 5778%float] (named u.K)
          [:: 1%float] (named u.solRad) [:: 1%float] (named u.AU)
          erefl erefl erefl erefl).
Defined.
